(** * top1 algorithms: [src/util/algorithm.hpp]

    A shallow embedding of the five function templates of
    [util/algorithm.hpp] ([join_strings], [generate_sequence],
    [for_each_n], [indexed_for], [indexed_for_n]) and the properties
    their specification states about them. *)

From Equations Require Import Equations.
From Stdlib Require Import List Arith ZArith Lia Bool String Ascii.
Import ListNotations.

Set Implicit Arguments.

(** ** Outcomes

    Dereferencing an iterator that does not designate an element is
    undefined behaviour; the embedding reports it instead of inventing a
    value. *)

Inductive outcome (X : Type) : Type :=
| Done (x : X)
| Undefined.

Arguments Done {X} x.
Arguments Undefined {X}.

Definition outcome_map {X Y : Type} (g : X -> Y) (o : outcome X) : outcome Y :=
  match o with
  | Done x => Done (g x)
  | Undefined => Undefined
  end.

(** ** Sequences, positions and visitors

    The caller's memory is a store [St].  The sequence an operation walks
    over lives in that store: it has [len] elements, and [read st p] is the
    element at position [p < len] in store [st].  An iterator is a position
    [0 .. len] ([len] is the past-the-end iterator).  A visitor may change
    the store, the elements of the sequence included. *)

Record run (A St : Type) : Type := mkRun {
  store : St;                 (* the caller's memory *)
  calls : list (A * Z)        (* the argument lists of the visitor's invocations, oldest first *)
}.

Arguments mkRun {A St} store calls.

(** The count argument of [indexed_for_n], whose parameter is the
    forwarding reference [Size&& n].
    - [Temporary n]: the count is a prvalue (a literal, the value of an
      expression).  [Size] is the integer type and [n] is bound to a
      temporary holding [n], out of the visitor's reach.
    - [Moved get]: the count is an xvalue ([std::move(x)]).  [Size] is the
      integer type and [n] refers to the caller's object [x], which
      [get] reads from the store.
    - [Named get]: the count is an lvalue (a named variable, [const] or
      not).  [Size] is a reference type, and the function does not
      instantiate: [Size i = 0] cannot bind [int&] to [0], and [++i] cannot
      increment through [const int&]. *)
Inductive count_arg (St : Type) : Type :=
| Temporary (n : Z)
| Moved (get : St -> Z)
| Named (get : St -> Z).

Arguments Temporary {St} n.
Arguments Moved {St} get.
Arguments Named {St} get.

Section Loops.
Context {A St : Type}.
Variable len : nat.
Variable read : St -> nat -> A.

(** A visitor as the loops invoke it: with the element and the index.  (The
    [enable_if] conditions of [for_each_n] and [indexed_for_n] ask that [f]
    can also be called with the element alone; no body makes that call, and
    [is_iterator_v] of [util/type_traits.hpp] only restricts the iterator
    type.  Both are settled when the template is instantiated.) *)
Definition visitor : Type := A -> Z -> St -> St.

(** [std::invoke(std::forward<F>(f), a, i)] *)
Definition invoke (f : visitor) (a : A) (i : Z) (r : run A St) : run A St :=
  mkRun (f a i (store r)) (calls r ++ [(a, i)]).

(** [for (Size i = 0; i < n; ++first, (void) ++i) { std::invoke(f, *first, i); }
    return first;] *)
Equations? for_each_n_loop (n : Z) (f : visitor) (i : Z) (first : nat)
    (r : run A St) : outcome (nat * run A St) by wf (Z.to_nat (n - i)) lt :=
  for_each_n_loop n f i first r with Z_lt_dec i n := {
    | left _ with lt_dec first len := {
      | left _ =>
          for_each_n_loop n f (i + 1) (S first)
            (invoke f (read (store r) first) i r)
      | right _ => Undefined }
    | right _ => Done (first, r) }.
Proof. lia. Qed.

(** [for_each_n(first, n, f)]: [Size] is any integer type, so [n] may be
    negative, in which case the body never runs. *)
Definition for_each_n (first : nat) (n : Z) (f : visitor) (st : St)
  : outcome (nat * run A St) :=
  for_each_n_loop n f 0 first (mkRun st []).

(** [for (Size i = 0; i < n; ++first, (void) ++i) { std::invoke(f, *first, i); }
    return first;] where [n] is a reference: every test [i < n] reads the
    object [n] refers to, [bound (store r)] here.  The loop ends by the
    test or by running off the sequence, whatever the visitor does to that
    object. *)
Equations? indexed_for_n_loop (bound : St -> Z) (f : visitor) (i : Z)
    (first : nat) (r : run A St) : outcome (nat * run A St)
    by wf (len - first) lt :=
  indexed_for_n_loop bound f i first r with Z_lt_dec i (bound (store r)) := {
    | left _ with lt_dec first len := {
      | left _ =>
          indexed_for_n_loop bound f (i + 1) (S first)
            (invoke f (read (store r) first) i r)
      | right _ => Undefined }
    | right _ => Done (first, r) }.
Proof. lia. Qed.

(** [indexed_for_n(first, n, f)]; [None] when the template does not
    instantiate for the count it is given. *)
Definition indexed_for_n (first : nat) (n : count_arg St) (f : visitor) (st : St)
  : option (outcome (nat * run A St)) :=
  match n with
  | Temporary k => Some (indexed_for_n_loop (fun _ => k) f 0 first (mkRun st []))
  | Moved get => Some (indexed_for_n_loop get f 0 first (mkRun st []))
  | Named _ => None
  end.

End Loops.

(** ** [std::for_each]

    [std::for_each(first, last, f)] of [<algorithm>] is
    [for (; first != last; ++first) f( *first );].  Its function object works
    on a world [W] (the store together with whatever the lambda captures by
    reference). *)

Section StdForEach.
Context {A W : Type}.
Variable len : nat.
Variable read : W -> nat -> A.

Equations? std_for_each (first last : nat) (f : A -> W -> W) (w : W)
    : outcome W by wf (len - first) lt :=
  std_for_each first last f w with Nat.eq_dec first last := {
    | left _ => Done w
    | right _ with lt_dec first len := {
      | left _ => std_for_each (S first) last f (f (read w first) w)
      | right _ => Undefined } }.
Proof. lia. Qed.

End StdForEach.

(** ** [indexed_for] *)

(** [std::size_t] arithmetic wraps around at [SIZE_MAX + 1]. *)
Definition SIZE_WIDTH : Z := 64.

Definition size_t_incr (i : Z) : Z := (i + 1) mod 2 ^ SIZE_WIDTH.

Section IndexedFor.
Context {A St : Type}.
Variable len : nat.
Variable read : St -> nat -> A.

(** The lambda [[&] (auto&& a) { std::invoke(f, a, i); i++; }]: its world
    is the run so far and the captured counter [i]. *)
Definition indexed_for_body (f : visitor (A := A) (St := St)) (a : A)
    (w : run A St * Z) : run A St * Z :=
  (invoke f a (snd w) (fst w), size_t_incr (snd w)).

(** [indexed_for(first, last, f)].  The source declares the counter as
    [std::size_t i;], with no initialiser.  Reading such an object is
    undefined by the letter of the language; the embedding takes the
    reading closest to what a compiled program does, in which the counter
    starts from whatever the object holds, [i0] here. *)
Definition indexed_for (i0 : Z) (first last : nat) (f : visitor) (st : St)
  : outcome (Z * run A St) :=
  outcome_map (fun w => (snd w, fst w))
    (std_for_each len (fun w p => read (store (fst w)) p) first last
       (indexed_for_body f) (mkRun st [], i0)).

End IndexedFor.

(** ** [join_strings] *)

Inductive piece : Type :=
| Separator
| Element (s : string).

(** The world of the lambda of [join_strings]: the caller's store, the
    local [result], and the arguments of the [append] calls made so far. *)
Record joiner (St : Type) : Type := mkJoiner {
  caller : St;
  result : string;
  appended : list piece
}.

Arguments mkJoiner {St} caller result appended.

(** [s.empty()] *)
Definition empty (s : string) : bool :=
  match s with
  | EmptyString => true
  | String _ _ => false
  end.

Section JoinStrings.
Context {St : Type}.
Variable len : nat.
Variable read : St -> nat -> string.

(** [result.append(js)] *)
Definition append_separator (js : string) (w : joiner St) : joiner St :=
  mkJoiner (caller w) (result w ++ js) (appended w ++ [Separator]).

(** [result.append(s)] *)
Definition append_element (s : string) (w : joiner St) : joiner St :=
  mkJoiner (caller w) (result w ++ s) (appended w ++ [Element s]).

(** [[&] (auto&& s) { if (!result.empty()) { result.append(js); } result.append(s); }] *)
Definition join_body (js : string) (s : string) (w : joiner St) : joiner St :=
  append_element s
    (if negb (empty (result w)) then append_separator js w else w).

Definition join_strings_run (b e : nat) (js : string) (st : St)
  : outcome (joiner St) :=
  std_for_each len (fun w p => read (caller w) p) b e (join_body js)
    (mkJoiner st EmptyString []).

(** [join_strings(b, e, js)] *)
Definition join_strings (b e : nat) (js : string) (st : St) : outcome string :=
  outcome_map (@result St) (join_strings_run b e js st).

End JoinStrings.

(** The default argument [js = ", "]. *)
Definition default_separator : string := ", ".

(** ** [generate_sequence] *)

(** [std::array<T, N>] *)
Record array (T : Type) : Type := mkArray {
  size : nat;
  data : list T
}.

Arguments mkArray {T} size data.

Record gen_run (St : Type) : Type := mkGen {
  gstore : St;               (* the caller's memory *)
  gcalls : list Z            (* the arguments of the generator's invocations, oldest first *)
}.

Arguments mkGen {St} gstore gcalls.

(** [std::make_integer_sequence<int, n>]: the values [0 .. n-1]; a negative
    [n] makes the program ill-formed. *)
Definition make_integer_sequence (n : Z) : option (list Z) :=
  if (n <? 0)%Z then None else Some (map Z.of_nat (seq 0 (Z.to_nat n))).

Section Generate.
Context {T St : Type}.

Definition generator : Type := Z -> St -> T * St.

(** [std::invoke(std::forward<Func>(gen), ns)...] inside braces: the
    initialiser clauses are evaluated in the order they are written. *)
Fixpoint invoke_each (gen : generator) (ns : list Z) (r : gen_run St)
  : list T * gen_run St :=
  match ns with
  | [] => ([], r)
  | k :: ns' =>
      let (v, st') := gen k (gstore r) in
      let (vs, r') := invoke_each gen ns' (mkGen st' (gcalls r ++ [k])) in
      (v :: vs, r')
  end.

End Generate.

Module detail.
Section Impl.
Context {T St : Type}.

(** [return std::array{std::invoke(std::forward<Func>(gen), ns)...};]
    The template arguments of [std::array] are deduced through its one
    guide, [array(T, U...) -> array<T, 1 + sizeof...(U)>], which needs a
    first argument: with an empty pack [ns] the function does not
    instantiate, and [None] stands for that. *)
Definition generate_sequence_impl (ns : list Z) (gen : generator (T := T) (St := St))
    (st : St) : option (array T * gen_run St) :=
  match ns with
  | [] => None
  | _ :: us =>
      let (vs, r) := invoke_each gen ns (mkGen st []) in
      Some (mkArray (1 + List.length us) vs, r)
  end.

End Impl.
End detail.

Section GenerateSequence.
Context {T St : Type}.

(** [generate_sequence<n>(gen)] *)
Definition generate_sequence (n : Z) (gen : generator (T := T) (St := St)) (st : St)
  : option (array T * gen_run St) :=
  match make_integer_sequence n with
  | None => None
  | Some intseq => detail.generate_sequence_impl intseq gen st
  end.

End GenerateSequence.

(** ** A concrete store for the examples

    A store holding a sequence of integers and an accumulator. *)

Module Sample.

Record mem : Type := mkMem {
  items : list Z;
  acc : Z;
  seen : list Z
}.

Definition rd (m : mem) (p : nat) : Z := nth p (items m) 0%Z.

Definition init (l : list Z) : mem := mkMem l 0 [].

(** adds the element to the accumulator *)
Definition sum_visitor (x _ : Z) (m : mem) : mem :=
  mkMem (items m) (acc m + x) (seen m).

(** records the index it is passed *)
Definition index_recorder (_ i : Z) (m : mem) : mem :=
  mkMem (items m) (acc m) (seen m ++ [i]).

(** overwrites the sequence with zeros *)
Definition eraser (_ _ : Z) (m : mem) : mem :=
  mkMem (map (fun _ => 0%Z) (items m)) (acc m) (seen m).

Definition srd (l : list string) (p : nat) : string := nth p l EmptyString.

Definition square : generator (T := Z) (St := unit) :=
  fun i st => ((i * i)%Z, st).

(** returns the number of invocations made so far *)
Definition ticket : generator (T := Z) (St := Z) :=
  fun _ st => (st, (st + 1)%Z).

(** squares the index and adds it to the accumulator *)
Definition tally : generator (T := Z) (St := mem) :=
  fun i m => ((i * i)%Z, mkMem (items m) (acc m + i) (seen m)).

(** the sequence read as strings: every element reads as "x" *)
Definition label (m : mem) (p : nat) : string := "x"%string.

End Sample.

(** ** Reference iterations

    The loops above, unrolled a given number of times by structural
    recursion; the theorems relate each loop to its unrolling on a range
    that lies inside the sequence. *)

Section Unrolled.
Context {A St : Type}.
Variable read : St -> nat -> A.

(** [k] rounds of the body of [for_each_n] and [indexed_for_n]. *)
Fixpoint visits (f : visitor) (i : Z) (first k : nat) (r : run A St) : run A St :=
  match k with
  | O => r
  | S k' => visits f (i + 1) (S first) k' (invoke f (read (store r) first) i r)
  end.

(** The store after [k] invocations of the visitor on the elements from
    [first] on with the indices from [i] on, and the arguments of these
    invocations, spelled without the [invoke] of the loops. *)
Fixpoint applied (f : visitor) (i : Z) (first k : nat) (st : St) : St :=
  match k with
  | O => st
  | S k' => applied f (i + 1) (S first) k' (f (read st first) i st)
  end.

Fixpoint passed (f : visitor) (i : Z) (first k : nat) (st : St) : list (A * Z) :=
  match k with
  | O => []
  | S k' =>
      (read st first, i) :: passed f (i + 1) (S first) k' (f (read st first) i st)
  end.

End Unrolled.

Section Walk.
Context {A W : Type}.
Variable read : W -> nat -> A.

(** [k] rounds of the body of [std::for_each]. *)
Fixpoint walk (f : A -> W -> W) (first k : nat) (w : W) : W :=
  match k with
  | O => w
  | S k' => walk f (S first) k' (f (read w first) w)
  end.

End Walk.

(** The indices [i, i+1, ..., i+k-1]. *)
Definition indices_from (i : Z) (k : nat) : list Z :=
  map (fun j => (i + Z.of_nat j)%Z) (seq 0 k).

(** The indices [i0, i0+1, ...] of [k] rounds of [size_t] counting, which
    wraps at [2 ^ SIZE_WIDTH]. *)
Definition wrapped_indices (i0 : Z) (k : nat) : list Z :=
  map (fun j => ((i0 + Z.of_nat j) mod 2 ^ SIZE_WIDTH)%Z) (seq 0 k).

(** The elements at positions [first, first+1, ..., first+k-1] of a store. *)
Definition elements {A St : Type} (read : St -> nat -> A) (st : St)
    (first k : nat) : list A :=
  map (read st) (seq first k).

(** ** Reading a joined string

    [render] spells out a list of appended pieces; [scan] walks a string
    from the left, counting the occurrences of [js] that do not overlap and
    dropping them ([skip] characters of a match are still to be dropped);
    the empty string is not counted as an occurrence. *)

Definition render_piece (js : string) (p : piece) : string :=
  match p with
  | Separator => js
  | Element s => s
  end.

Definition flatten (l : list string) : string :=
  fold_right append EmptyString l.

Definition render (js : string) (ps : list piece) : string :=
  flatten (map (render_piece js) ps).

Fixpoint scan (js : string) (skip : nat) (s : string) : nat * string :=
  match s with
  | EmptyString => (0, EmptyString)
  | String c s' =>
      match skip with
      | S k => scan js k s'
      | O =>
          if negb (empty js) && prefix js (String c s')
          then let (n, t) := scan js (String.length js - 1) s' in (S n, t)
          else let (n, t) := scan js 0 s' in (n, String c t)
      end
  end.

Definition occurrences (js s : string) : nat := fst (scan js 0 s).

Definition remove_occurrences (js s : string) : string := snd (scan js 0 s).

(** Does the character [c] occur in [s]? *)
Fixpoint occurs (c : ascii) (s : string) : bool :=
  match s with
  | EmptyString => false
  | String d s' => Ascii.eqb c d || occurs c s'
  end.

(** The lambda of [join_strings] applied to the strings of a list in turn. *)
Definition join_all {St : Type} (js : string) (l : list string)
    (w : joiner St) : joiner St :=
  fold_left (fun w s => join_body js s w) l w.

(** The store after the generator has been invoked on each index of [ns]
    in turn. *)
Definition gen_store {T St : Type} (gen : generator (T := T) (St := St))
    (ns : list Z) (st : St) : St :=
  fold_left (fun st k => snd (gen k st)) ns st.

(** [0, 1, ..., k-1] as [int] values. *)
Definition iota (k : nat) : list Z := map Z.of_nat (seq 0 k).

(** The store a call leaves behind, when it returns. *)
Definition final_store {X A St : Type} (o : outcome (X * run A St)) : option St :=
  match o with
  | Done (_, r) => Some (store r)
  | Undefined => None
  end.

(** [st'] holds the same elements as [st]. *)
Definition same_elements {A St : Type} (len : nat) (read : St -> nat -> A)
    (st st' : St) : Prop :=
  forall p, p < len -> read st' p = read st p.

(** ** Reading the pieces of a join *)


(** The pieces appended for the strings of [l] in turn, when a string is
    preceded by the separator unless every string before it is empty;
    [fresh] tells that nothing but empty strings came so far. *)
Fixpoint pieces (fresh : bool) (l : list string) : list piece :=
  match l with
  | [] => []
  | s :: l' =>
      (if fresh then [Element s] else [Separator; Element s])
      ++ pieces (fresh && empty s) l'
  end.

(** [l] without the empty strings it starts with. *)
Fixpoint drop_leading_empty (l : list string) : list string :=
  match l with
  | [] => []
  | s :: l' => if empty s then drop_leading_empty l' else l
  end.

(** [f] handed indices that are [n] ahead. *)
Definition shift_index {A St : Type} (n : Z)
    (f : visitor (A := A) (St := St)) : visitor (A := A) (St := St) :=
  fun a j => f a (n + j)%Z.

(** [count_holds c f st n]: the count argument [c] lets [indexed_for_n]
    instantiate, the object it designates holds [n] when the call begins,
    and the visitor [f] leaves that object alone (a temporary always is). *)
Definition count_holds {A St : Type} (c : count_arg St)
    (f : visitor (A := A) (St := St)) (st : St) (n : Z) : Prop :=
  match c with
  | Temporary k => k = n
  | Moved get => get st = n /\ forall a j s, get (f a j s) = get s
  | Named _ => False
  end.

(** * Properties *)

(** ** The counted loops *)

Section LoopFacts.
Context {A St : Type}.
Variable len : nat.
Variable read : St -> nat -> A.

Lemma for_each_n_loop_exit n f i first (r : run A St) :
  (n <= i)%Z -> for_each_n_loop len read n f i first r = Done (first, r).
Proof.
  intros Hn. simp for_each_n_loop.
  destruct (Z_lt_dec i n) as [Hlt | Hge]; [lia | reflexivity].
Qed.

Lemma for_each_n_loop_step n f i first (r : run A St) :
  (i < n)%Z -> first < len ->
  for_each_n_loop len read n f i first r
  = for_each_n_loop len read n f (i + 1) (S first)
      (invoke f (read (store r) first) i r).
Proof.
  intros Hi Hf. rewrite for_each_n_loop_equation_1.
  destruct (Z_lt_dec i n) as [Hlt | Hge]; [| lia]. cbn.
  destruct (lt_dec first len) as [Hin | Hout]; [| lia]. reflexivity.
Qed.

Lemma for_each_n_loop_overrun n f i first (r : run A St) :
  (i < n)%Z -> len <= first ->
  for_each_n_loop len read n f i first r = Undefined.
Proof.
  intros Hi Hf. rewrite for_each_n_loop_equation_1.
  destruct (Z_lt_dec i n) as [Hlt | Hge]; [| lia]. cbn.
  destruct (lt_dec first len) as [Hin | Hout]; [lia | reflexivity].
Qed.

Lemma for_each_n_loop_visits k : forall n f i first (r : run A St),
  (n - i = Z.of_nat k)%Z -> first + k <= len ->
  for_each_n_loop len read n f i first r
  = Done (first + k, visits read f i first k r).
Proof.
  induction k as [| k IH]; intros n f i first r Hk Hlen.
  - rewrite for_each_n_loop_exit by lia. now rewrite Nat.add_0_r.
  - rewrite for_each_n_loop_step by lia.
    rewrite (IH n f (i + 1)%Z (S first)) by lia.
    cbn [visits]. do 2 f_equal. lia.
Qed.

End LoopFacts.

Section LoopEquivalence.
Context {A St : Type}.
Variable len : nat.
Variable read : St -> nat -> A.

Lemma indexed_for_n_loop_exit bound f i first (r : run A St) :
  (bound (store r) <= i)%Z ->
  indexed_for_n_loop len read bound f i first r = Done (first, r).
Proof.
  intros Hn. rewrite indexed_for_n_loop_equation_1.
  destruct (Z_lt_dec i (bound (store r))) as [Hlt | Hge]; [lia | reflexivity].
Qed.

Lemma indexed_for_n_loop_step bound f i first (r : run A St) :
  (i < bound (store r))%Z -> first < len ->
  indexed_for_n_loop len read bound f i first r
  = indexed_for_n_loop len read bound f (i + 1) (S first)
      (invoke f (read (store r) first) i r).
Proof.
  intros Hi Hf. rewrite indexed_for_n_loop_equation_1.
  destruct (Z_lt_dec i (bound (store r))) as [Hlt | Hge]; [| lia]. cbn.
  destruct (lt_dec first len) as [Hin | Hout]; [| lia]. reflexivity.
Qed.

Lemma indexed_for_n_loop_overrun bound f i first (r : run A St) :
  (i < bound (store r))%Z -> len <= first ->
  indexed_for_n_loop len read bound f i first r = Undefined.
Proof.
  intros Hi Hf. rewrite indexed_for_n_loop_equation_1.
  destruct (Z_lt_dec i (bound (store r))) as [Hlt | Hge]; [| lia]. cbn.
  destruct (lt_dec first len) as [Hin | Hout]; [lia | reflexivity].
Qed.

(** As long as the visitor leaves the object the count refers to alone,
    the loop of [indexed_for_n] is the loop of [for_each_n] on the value
    that object holds. *)
Lemma indexed_for_n_loop_eq bound n f k : forall i first (r : run A St),
  (forall a j s, bound (f a j s) = bound s) ->
  bound (store r) = n -> Z.to_nat (n - i) = k ->
  indexed_for_n_loop len read bound f i first r
  = for_each_n_loop len read n f i first r.
Proof.
  induction k as [| k IH]; intros i first r Hf Hb Hk.
  - rewrite indexed_for_n_loop_exit, for_each_n_loop_exit by lia. reflexivity.
  - destruct (lt_dec first len) as [Hin | Hout].
    + rewrite indexed_for_n_loop_step, for_each_n_loop_step by lia.
      apply IH; [assumption | | lia]. cbn. now rewrite Hf.
    + rewrite indexed_for_n_loop_overrun, for_each_n_loop_overrun by lia.
      reflexivity.
Qed.

Lemma indexed_for_n_temporary first n f (st : St) :
  indexed_for_n len read first (Temporary n) f st
  = Some (for_each_n len read first n f st).
Proof.
  unfold indexed_for_n, for_each_n. f_equal.
  apply indexed_for_n_loop_eq with (k := Z.to_nat (n - 0)); auto.
Qed.

Lemma indexed_for_n_moved first get f (st : St) :
  (forall a j s, get (f a j s) = get s) ->
  indexed_for_n len read first (Moved get) f st
  = Some (for_each_n len read first (get st) f st).
Proof.
  intros Hf. unfold indexed_for_n, for_each_n. f_equal.
  apply indexed_for_n_loop_eq with (k := Z.to_nat (get st - 0)); auto.
Qed.

Lemma indexed_for_n_count_holds first c f (st : St) n :
  count_holds c f st n ->
  indexed_for_n len read first c f st
  = Some (for_each_n len read first n f st).
Proof.
  destruct c as [k | get | get]; cbn [count_holds].
  - intros <-. apply indexed_for_n_temporary.
  - intros [<- Hf]. now apply indexed_for_n_moved.
  - contradiction.
Qed.

(** Whatever every invocation of the visitor preserves, the loop
    preserves, wherever it stops. *)
Lemma indexed_for_n_loop_invariant (P : St -> Prop) f :
  (forall a i st, P st -> P (f a i st)) ->
  forall bound i first (r : run A St) p r',
    indexed_for_n_loop len read bound f i first r = Done (p, r') ->
    P (store r) -> P (store r').
Proof.
  intros Hf bound i first r.
  funelim (indexed_for_n_loop len read bound f i first r); intros p r' Hrun Hr.
  - now inversion Hrun; subst.
  - match goal with
    | IH : forall _ : _, _ |- _ => eapply IH; eauto
    end.
    cbn. now apply Hf.
  - discriminate.
Qed.

End LoopEquivalence.

Section VisitsFacts.
Context {A St : Type}.
Variable read : St -> nat -> A.

Lemma indices_from_S i k :
  indices_from i (S k) = i :: indices_from (i + 1) k.
Proof.
  unfold indices_from. cbn [seq map]. f_equal; [lia |].
  rewrite <- seq_shift, map_map. apply map_ext. intros j. lia.
Qed.

Lemma indices_from_length i k : List.length (indices_from i k) = k.
Proof. unfold indices_from. now rewrite length_map, length_seq. Qed.

Lemma visits_indices k : forall f i first (r : run A St),
  map snd (calls (visits read f i first k r))
  = map snd (calls r) ++ indices_from i k.
Proof.
  induction k as [| k IH]; intros f i first r.
  - cbn. now rewrite app_nil_r.
  - cbn [visits]. rewrite IH, indices_from_S. cbn [invoke calls].
    rewrite map_app, <- app_assoc. reflexivity.
Qed.

Lemma visits_count k f i first (r : run A St) :
  List.length (calls (visits read f i first k r)) = List.length (calls r) + k.
Proof.
  rewrite <- (length_map snd), visits_indices, length_app, length_map.
  now rewrite indices_from_length.
Qed.

(** Whatever every invocation of the visitor preserves, the loop preserves. *)
Lemma visits_invariant (P : St -> Prop) f :
  (forall a i st, P st -> P (f a i st)) ->
  forall k i first (r : run A St), P (store r) -> P (store (visits read f i first k r)).
Proof.
  intros Hf. induction k as [| k IH]; intros i first r Hr; cbn [visits].
  - exact Hr.
  - apply IH. cbn. now apply Hf.
Qed.




End VisitsFacts.

(** ** [std::for_each] on a range inside the sequence *)

Section ForEachFacts.
Context {A W : Type}.
Variable len : nat.
Variable read : W -> nat -> A.

Lemma std_for_each_exit first (f : A -> W -> W) w :
  std_for_each len read first first f w = Done w.
Proof.
  rewrite std_for_each_equation_1.
  destruct (Nat.eq_dec first first) as [Heq | Hne]; [reflexivity | congruence].
Qed.

Lemma std_for_each_step first last (f : A -> W -> W) w :
  first <> last -> first < len ->
  std_for_each len read first last f w
  = std_for_each len read (S first) last f (f (read w first) w).
Proof.
  intros Hne Hlt. rewrite std_for_each_equation_1.
  destruct (Nat.eq_dec first last) as [Heq | Hne']; [congruence |]. cbn.
  destruct (lt_dec first len) as [Hin | Hout]; [reflexivity | lia].
Qed.

Lemma std_for_each_walk k : forall first last (f : A -> W -> W) w,
  first + k = last -> last <= len ->
  std_for_each len read first last f w = Done (walk read f first k w).
Proof.
  induction k as [| k IH]; intros first last f w Hk Hlen.
  - rewrite Nat.add_0_r in Hk. subst last. apply std_for_each_exit.
  - rewrite std_for_each_step by lia. now rewrite (IH (S first)) by lia.
Qed.

(** Whatever every call of the function object preserves, the loop
    preserves, wherever it stops. *)
Lemma std_for_each_invariant (P : W -> Prop) (f : A -> W -> W) :
  (forall a w, P w -> P (f a w)) ->
  forall first last w w',
    std_for_each len read first last f w = Done w' -> P w -> P w'.
Proof.
  intros Hf first last w.
  funelim (std_for_each len read first last f w); intros w' Hrun Hw.
  - now inversion Hrun; subst.
  - match goal with IH : forall _ : _, _ |- _ => eapply IH; eauto end.
  - discriminate.
Qed.

Lemma walk_invariant (P : W -> Prop) (f : A -> W -> W) :
  (forall a w, P w -> P (f a w)) ->
  forall k first w, P w -> P (walk read f first k w).
Proof.
  intros Hf. induction k as [| k IH]; intros first w Hw; cbn [walk]; auto.
Qed.

(** A function object that leaves the elements alone sees the elements
    of the initial world, in order. *)
Lemma walk_fold (f : A -> W -> W) :
  (forall a w p, read (f a w) p = read w p) ->
  forall k first w,
    walk read f first k w
    = fold_left (fun w a => f a w) (elements read w first k) w.
Proof.
  intros Hf. induction k as [| k IH]; intros first w; cbn [walk].
  - reflexivity.
  - rewrite IH. unfold elements. cbn [seq map fold_left]. f_equal.
    apply map_ext. intros p. apply Hf.
Qed.

End ForEachFacts.

(** ** [indexed_for] *)

Section IndexedForFacts.
Context {A St : Type}.
Variable len : nat.
Variable read : St -> nat -> A.

Lemma wrapped_indices_S i0 k :
  (0 <= i0 < 2 ^ SIZE_WIDTH)%Z ->
  wrapped_indices i0 (S k) = i0 :: wrapped_indices (size_t_incr i0) k.
Proof.
  intros Hi. unfold wrapped_indices. cbn [seq map]. f_equal.
  - rewrite Z.add_0_r. now apply Z.mod_small.
  - rewrite <- seq_shift, map_map. apply map_ext. intros j.
    unfold size_t_incr. rewrite Zplus_mod_idemp_l. f_equal. lia.
Qed.

Lemma size_t_incr_range i :
  (0 <= size_t_incr i < 2 ^ SIZE_WIDTH)%Z.
Proof. unfold size_t_incr. apply Z.mod_pos_bound. reflexivity. Qed.

Lemma walk_indexed_for f k : forall first (r : run A St) i,
  (0 <= i < 2 ^ SIZE_WIDTH)%Z ->
  let w := walk (fun w p => read (store (fst w)) p)
             (indexed_for_body f) first k (r, i) in
  snd w = ((i + Z.of_nat k) mod 2 ^ SIZE_WIDTH)%Z
  /\ map snd (calls (fst w)) = map snd (calls r) ++ wrapped_indices i k.
Proof.
  induction k as [| k IH]; intros first r i Hi; cbn [walk].
  - cbn. rewrite Z.add_0_r, Z.mod_small by assumption.
    now rewrite app_nil_r.
  - destruct (IH (S first) (invoke f (read (store r) first) i r)
                (size_t_incr i) (size_t_incr_range i)) as [Hret Hcalls].
    change (indexed_for_body f (read (store (fst (r, i))) first) (r, i))
      with (invoke f (read (store r) first) i r, size_t_incr i).
    split.
    + rewrite Hret. unfold size_t_incr. rewrite Zplus_mod_idemp_l.
      f_equal. lia.
    + rewrite Hcalls, wrapped_indices_S by assumption.
      cbn [invoke calls]. rewrite map_app, <- app_assoc. reflexivity.
Qed.

(** What the source computes: counting starts from the value [i0] the
    counter happens to hold. *)
Lemma indexed_for_from i0 first last f st :
  first <= last -> last <= len -> (0 <= i0 < 2 ^ SIZE_WIDTH)%Z ->
  exists r,
    indexed_for len read i0 first last f st
    = Done (((i0 + Z.of_nat (last - first)) mod 2 ^ SIZE_WIDTH)%Z, r)
    /\ map snd (calls r) = wrapped_indices i0 (last - first).
Proof.
  intros Hfl Hlen Hi. unfold indexed_for.
  rewrite (std_for_each_walk _ (last - first)) by lia.
  destruct (walk_indexed_for f (last - first) first (mkRun st []) Hi)
    as [Hret Hcalls].
  cbn zeta in Hret, Hcalls. cbn [outcome_map].
  eexists. split.
  - f_equal. f_equal. exact Hret.
  - exact Hcalls.
Qed.

(** Had the counter been set to zero, the documented behaviour would follow. *)
Lemma indexed_for_from_zero first last f st :
  first <= last -> last <= len -> (Z.of_nat (last - first) < 2 ^ SIZE_WIDTH)%Z ->
  exists r,
    indexed_for len read 0 first last f st
    = Done (Z.of_nat (last - first), r)
    /\ map snd (calls r) = indices_from 0 (last - first).
Proof.
  intros Hfl Hlen Hsmall.
  destruct (indexed_for_from (i0 := 0) f st Hfl Hlen) as [r [Hrun Hcalls]].
  { split; [lia | reflexivity]. }
  exists r. split.
  - rewrite Hrun. rewrite Z.add_0_l, Z.mod_small by lia. reflexivity.
  - rewrite Hcalls. unfold wrapped_indices, indices_from.
    apply map_ext_in. intros j Hj. apply in_seq in Hj.
    apply Z.mod_small. lia.
Qed.

End IndexedForFacts.

(** ** Strings *)

Section StringFacts.

Lemma append_nil_r (s : string) : (s ++ "")%string = s.
Proof. induction s as [| c s IH]; cbn; congruence. Qed.

Lemma append_assoc (s t u : string) :
  ((s ++ t) ++ u)%string = (s ++ t ++ u)%string.
Proof. induction s as [| c s IH]; cbn; congruence. Qed.

Lemma empty_append_l (s t : string) :
  empty s = false -> empty (s ++ t) = false.
Proof. destruct s; [discriminate | reflexivity]. Qed.

Lemma flatten_app (l1 l2 : list string) :
  flatten (l1 ++ l2) = (flatten l1 ++ flatten l2)%string.
Proof.
  induction l1 as [| s l1 IH]; cbn; [reflexivity |].
  unfold flatten in IH. now rewrite IH, append_assoc.
Qed.

Lemma prefix_append (s r : string) : prefix s (s ++ r) = true.
Proof.
  induction s as [| c s IH]; cbn.
  - now destruct r.
  - destruct (ascii_dec c c) as [_ | Hne]; [exact IH | congruence].
Qed.

Lemma prefix_head_mismatch c js d s :
  c <> d -> prefix (String c js) (String d s) = false.
Proof.
  intros Hne. cbn. destruct (ascii_dec c d) as [Heq | _]; [contradiction | reflexivity].
Qed.

(** The characters of a match that are still to be dropped go unread. *)
Lemma scan_skip js t : forall r,
  scan js (String.length t) (t ++ r) = scan js 0 r.
Proof. induction t as [| c t IH]; intros r; cbn; [reflexivity | apply IH]. Qed.

(** A stretch in which the first character of [js] does not occur is
    copied as it is. *)
Lemma scan_clean c js s : forall r,
  occurs c s = false ->
  scan (String c js) 0 (s ++ r)
  = (fst (scan (String c js) 0 r), (s ++ snd (scan (String c js) 0 r))%string).
Proof.
  induction s as [| d s IH]; intros r Hs.
  - cbn [append]. now destruct (scan (String c js) 0 r).
  - cbn [occurs] in Hs. apply orb_false_elim in Hs as [Hcd Hs].
    apply Ascii.eqb_neq in Hcd.
    change ((String d s ++ r)%string) with (String d (s ++ r)).
    cbn [scan]. rewrite prefix_head_mismatch by assumption.
    cbn [empty negb andb]. rewrite IH by assumption. reflexivity.
Qed.

(** An occurrence of [js] at the front is counted and dropped. *)
Lemma scan_separator c js r :
  scan (String c js) 0 (String c js ++ r)
  = (S (fst (scan (String c js) 0 r)), snd (scan (String c js) 0 r)).
Proof.
  change ((String c js ++ r)%string) with (String c (js ++ r)).
  cbn [scan]. change (String c (js ++ r)) with ((String c js ++ r)%string).
  rewrite prefix_append. cbn [empty negb andb].
  replace (String.length (String c js) - 1) with (String.length js)
    by (cbn [String.length]; lia).
  rewrite scan_skip. now destruct (scan (String c js) 0 r).
Qed.

Lemma scan_joined_tail c js (l : list string) :
  Forall (fun s => occurs c s = false) l ->
  scan (String c js) 0 (flatten (map (append (String c js)) l))
  = (List.length l, flatten l).
Proof.
  induction 1 as [| s l Hs Hl IH]; [reflexivity |].
  cbn [map flatten fold_right List.length].
  fold (flatten (map (append (String c js)) l)). fold (flatten l).
  rewrite append_assoc, scan_separator, scan_clean by assumption.
  now rewrite IH.
Qed.

End StringFacts.

(** ** [join_strings] *)

Section JoinFacts.
Context {St : Type}.
Variable len : nat.
Variable read : St -> nat -> string.

Lemma join_body_caller js s (w : joiner St) :
  caller (join_body js s w) = caller w.
Proof. unfold join_body. now destruct (negb (empty (result w))). Qed.

Lemma render_app js ps qs :
  render js (ps ++ qs) = (render js ps ++ render js qs)%string.
Proof. unfold render. now rewrite map_app, flatten_app. Qed.

Lemma render_one js p : render js [p] = render_piece js p.
Proof. unfold render. cbn. apply append_nil_r. Qed.

Lemma join_body_render js s (w : joiner St) :
  result w = render js (appended w) ->
  result (join_body js s w) = render js (appended (join_body js s w)).
Proof.
  intros Hw. unfold join_body.
  destruct (negb (empty (result w))); cbn [append_element append_separator
    result appended]; rewrite !render_app, !render_one, Hw; reflexivity.
Qed.

Lemma join_all_snoc js l s (w : joiner St) :
  join_all js (l ++ [s]) w = join_body js s (join_all js l w).
Proof. unfold join_all. now rewrite fold_left_app. Qed.

Lemma join_body_last js s (w : joiner St) :
  exists pre, appended (join_body js s w) = pre ++ [Element s].
Proof. unfold join_body, append_element. cbn [appended]. eauto. Qed.

Lemma join_body_grows js s (w : joiner St) :
  exists extra, appended (join_body js s w) = appended w ++ extra.
Proof.
  unfold join_body. destruct (negb (empty (result w)));
    cbn [append_element append_separator appended].
  - rewrite <- app_assoc. eauto.
  - eauto.
Qed.

Lemma join_all_grows js l : forall w : joiner St,
  exists extra, appended (join_all js l w) = appended w ++ extra.
Proof.
  induction l as [| s l IH]; intros w; cbn.
  - exists []. now rewrite app_nil_r.
  - destruct (IH (join_body js s w)) as [x Hx].
    destruct (join_body_grows js s w) as [y Hy].
    unfold join_all in Hx. rewrite Hx, Hy, <- app_assoc. eauto.
Qed.

(** Once [result] is not empty every further string is preceded by the
    separator. *)
Lemma join_all_nonempty js l : forall w : joiner St,
  empty (result w) = false ->
  result (join_all js l w)
  = (result w ++ flatten (map (append js) l))%string.
Proof.
  induction l as [| s l IH]; intros w Hw.
  - cbn. now rewrite append_nil_r.
  - change (join_all js (s :: l) w) with (join_all js l (join_body js s w)).
    unfold join_body. rewrite Hw. cbn [negb].
    rewrite IH.
    + cbn [append_element append_separator result map flatten fold_right].
      now rewrite !append_assoc.
    + cbn [append_element append_separator result].
      now do 2 apply empty_append_l.
Qed.

Lemma flatten_concat js s l :
  (s ++ flatten (map (append js) l))%string = concat js (s :: l).
Proof.
  revert s. induction l as [| t l IH]; intros s.
  - cbn. apply append_nil_r.
  - cbn [map flatten fold_right]. fold (flatten (map (append js) l)).
    rewrite append_assoc, IH. reflexivity.
Qed.

(** On a range inside the sequence [join_strings] is its lambda applied to
    the strings of the range, in order. *)
Lemma join_strings_run_all b e js st :
  b <= e -> e <= len ->
  join_strings_run len read b e js st
  = Done (join_all js (elements read st b (e - b)) (mkJoiner st EmptyString [])).
Proof.
  intros Hb He. unfold join_strings_run.
  rewrite (std_for_each_walk _ (e - b)) by lia.
  rewrite walk_fold.
  - reflexivity.
  - intros a w p. now rewrite join_body_caller.
Qed.

Lemma elements_cons (st : St) b k :
  elements read st b (S k) = read st b :: elements read st (S b) k.
Proof. reflexivity. Qed.

Lemma elements_snoc (st : St) b k :
  elements read st b (S k) = elements read st b k ++ [read st (b + k)].
Proof. unfold elements. now rewrite seq_S, map_app. Qed.

Lemma elements_length (st : St) b k :
  List.length (elements read st b k) = k.
Proof. unfold elements. now rewrite length_map, length_seq. Qed.

End JoinFacts.

(** ** [generate_sequence] *)

Section GenerateFacts.
Context {T St : Type}.
Variable gen : generator (T := T) (St := St).

Lemma invoke_each_calls ns : forall r,
  gcalls (snd (invoke_each gen ns r)) = gcalls r ++ ns.
Proof.
  induction ns as [| k ns IH]; intros r; cbn [invoke_each].
  - cbn. now rewrite app_nil_r.
  - destruct (gen k (gstore r)) as [v st'].
    specialize (IH (mkGen st' (gcalls r ++ [k]))).
    destruct (invoke_each gen ns (mkGen st' (gcalls r ++ [k]))) as [vs r'].
    cbn [snd gcalls] in *. now rewrite IH, <- app_assoc.
Qed.


Lemma invoke_each_store ns : forall r,
  gstore (snd (invoke_each gen ns r)) = gen_store gen ns (gstore r).
Proof.
  induction ns as [| k ns IH]; intros r; cbn [invoke_each]; [reflexivity |].
  cbn [gen_store fold_left].
  destruct (gen k (gstore r)) as [v st'].
  specialize (IH (mkGen st' (gcalls r ++ [k]))).
  destruct (invoke_each gen ns (mkGen st' (gcalls r ++ [k]))) as [vs r'].
  cbn [snd gstore] in *. exact IH.
Qed.


Lemma gen_store_invariant (P : St -> Prop) :
  (forall k st, P st -> P (snd (gen k st))) ->
  forall ns st, P st -> P (gen_store gen ns st).
Proof.
  intros Hg. induction ns as [| k ns IH]; intros st Hst; cbn; auto.
  apply IH. now apply Hg.
Qed.



Lemma iota_length N : List.length (iota N) = N.
Proof. unfold iota. now rewrite length_map, length_seq. Qed.

Lemma make_integer_sequence_iota n :
  (0 <= n)%Z -> make_integer_sequence n = Some (iota (Z.to_nat n)).
Proof.
  intros Hn. unfold make_integer_sequence.
  destruct (Z.ltb_spec n 0); [lia | reflexivity].
Qed.

(** What [generate_sequence<n>] does for a positive [n]. *)
Lemma generate_sequence_positive n st :
  (1 <= n)%Z ->
  generate_sequence n gen st
  = Some (mkArray (Z.to_nat n) (fst (invoke_each gen (iota (Z.to_nat n)) (mkGen st []))),
          snd (invoke_each gen (iota (Z.to_nat n)) (mkGen st []))).
Proof.
  intros Hn. unfold generate_sequence.
  rewrite make_integer_sequence_iota by lia.
  unfold detail.generate_sequence_impl.
  destruct (iota (Z.to_nat n)) as [| k us] eqn:Hns.
  - apply (f_equal (@List.length Z)) in Hns. rewrite iota_length in Hns.
    cbn in Hns. lia.
  - destruct (invoke_each gen (k :: us) (mkGen st [])) as [vs r].
    cbn [fst snd]. do 3 f_equal.
    apply (f_equal (@List.length Z)) in Hns. rewrite iota_length in Hns.
    cbn in Hns. lia.
Qed.

(** [generate_sequence<n>] does not instantiate for [n <= 0]. *)
Lemma generate_sequence_rejected n st :
  (n <= 0)%Z -> generate_sequence n gen st = None.
Proof.
  intros Hn. unfold generate_sequence, make_integer_sequence.
  destruct (Z.ltb_spec n 0); [reflexivity |].
  replace n with 0%Z by lia. reflexivity.
Qed.

End GenerateFacts.

(** ** Whole calls of the counted loops *)

Section CallFacts.
Context {A St : Type}.
Variable len : nat.
Variable read : St -> nat -> A.

Lemma for_each_n_run first n f (st : St) :
  first + Z.to_nat n <= len ->
  for_each_n len read first n f st
  = Done (first + Z.to_nat n, visits read f 0 first (Z.to_nat n) (mkRun st [])).
Proof.
  intros Hlen. unfold for_each_n.
  destruct (Z_le_gt_dec n 0) as [Hn | Hn].
  - rewrite for_each_n_loop_exit by assumption.
    replace (Z.to_nat n) with 0 by lia. now rewrite Nat.add_0_r.
  - apply for_each_n_loop_visits; lia.
Qed.

Lemma indexed_for_n_run first n f (st : St) :
  first + Z.to_nat n <= len ->
  indexed_for_n len read first (Temporary n) f st
  = Some (Done (first + Z.to_nat n,
                visits read f 0 first (Z.to_nat n) (mkRun st []))).
Proof.
  intros Hlen. rewrite indexed_for_n_temporary. f_equal.
  now apply for_each_n_run.
Qed.

(** Whatever every invocation of the visitor preserves, the loop
    preserves, wherever it stops. *)
Lemma for_each_n_loop_invariant (P : St -> Prop) f :
  (forall a i st, P st -> P (f a i st)) ->
  forall n i first (r : run A St) p r',
    for_each_n_loop len read n f i first r = Done (p, r') ->
    P (store r) -> P (store r').
Proof.
  intros Hf n i first r.
  funelim (for_each_n_loop len read n f i first r); intros p r' Hrun Hr.
  - now inversion Hrun; subst.
  - match goal with
    | IH : forall _ : _, _ |- _ => eapply IH; eauto
    end.
    cbn. now apply Hf.
  - discriminate.
Qed.

Lemma same_elements_refl (st : St) : same_elements len read st st.
Proof. intros p _. reflexivity. Qed.

Lemma same_elements_trans (st1 st2 st3 : St) :
  same_elements len read st1 st2 -> same_elements len read st2 st3 ->
  same_elements len read st1 st3.
Proof. intros H12 H23 p Hp. now rewrite H23, H12. Qed.

End CallFacts.

(** * The claims *)

Unset Implicit Arguments.
Open Scope Z_scope.

(** ** [indexed_for] *)

(** C1.  The specification says that [indexed_for] invokes the visitor with
    the indices 0, 1, ..., L-1 and returns L, and 0 on the empty range.  The
    source never initialises its counter ([std::size_t i;]), so counting
    starts from whatever the counter holds: when that is 7, the empty range
    returns 7 with no invocation, and a range of three elements passes the
    indices 7, 8, 9 and returns 10. *)
Theorem indexed_for_counts_from_stale_counter :
  indexed_for 3 Sample.rd 7 0 0 Sample.index_recorder (Sample.init [10; 20; 30])
  = Done (7, mkRun (Sample.init [10; 20; 30]) [])
  /\ indexed_for 3 Sample.rd 7 0 3 Sample.index_recorder (Sample.init [10; 20; 30])
     = Done (10, mkRun (Sample.mkMem [10; 20; 30] 0 [7; 8; 9])
                   [(10, 7); (20, 8); (30, 9)]).
Proof. split; reflexivity. Qed.

(** ** [for_each_n] and [indexed_for_n] *)




(** The scenario of the specification: [indexed_for_n] over
    [10, 20, 30, 40] from position 0 with [n = 2] and a summing visitor
    leaves 30 in the accumulator and returns position 2. *)
Remark indexed_for_n_sum_scenario :
  indexed_for_n 4 Sample.rd 0 (Temporary 2) Sample.sum_visitor
    (Sample.init [10; 20; 30; 40])
  = Some (Done (2%nat, mkRun (Sample.mkMem [10; 20; 30; 40] 30 [])
                         [(10, 0); (20, 1)]))
  /\ Sample.rd (Sample.init [10; 20; 30; 40]) 2 = 30.
Proof. split; reflexivity. Qed.

(** A count that exceeds what is left runs past the end of the sequence. *)
Remark for_each_n_past_the_end :
  for_each_n 2 Sample.rd 1 2 Sample.sum_visitor (Sample.init [10; 20]) = Undefined.
Proof. reflexivity. Qed.

(** The count of [indexed_for_n] is read through a reference at every
    test: a visitor that raises a moved-in count makes the loop go on,
    where [for_each_n], which holds a copy, stops. *)
Remark indexed_for_n_reads_count_each_round :
  indexed_for_n 3 Sample.rd 0 (Moved Sample.acc)
    (fun _ _ m => Sample.mkMem (Sample.items m) 3 (Sample.seen m))
    (Sample.mkMem [10; 20; 30] 1 [])
  = Some (Done (3%nat, mkRun (Sample.mkMem [10; 20; 30] 3 [])
                         [(10, 0); (20, 1); (30, 2)]))
  /\ for_each_n 3 Sample.rd 0 1
       (fun _ _ m => Sample.mkMem (Sample.items m) 3 (Sample.seen m))
       (Sample.mkMem [10; 20; 30] 1 [])
     = Done (1%nat, mkRun (Sample.mkMem [10; 20; 30] 3 []) [(10, 0)]).
Proof. split; reflexivity. Qed.




(** What [n] applications of a visitor leave: the recorder called twice
    from position 1 has seen the indices 0 and 1, on the elements 20
    and 30. *)
Remark applied_passed_example :
  applied Sample.rd Sample.index_recorder 0 1 2 (Sample.init [10; 20; 30; 40])
  = Sample.mkMem [10; 20; 30; 40] 0 [0; 1]
  /\ passed Sample.rd Sample.index_recorder 0 1 2 (Sample.init [10; 20; 30; 40])
     = [(20, 0); (30, 1)].
Proof. split; reflexivity. Qed.



(** ** [join_strings] *)

Open Scope string_scope.

Section JoinClaims.
Context {St : Type}.
Variable len : nat.
Variable read : St -> nat -> string.

(** With a first string that is not empty, [join_strings] puts the
    separator in front of every later string. *)
Lemma join_strings_first_nonempty b e js (st : St) :
  (b < e)%nat -> (e <= len)%nat -> read st b <> "" ->
  join_strings len read b e js st
  = Done (read st b
          ++ flatten (map (append js) (elements read st (S b) (e - b - 1)))).
Proof.
  intros Hb He Hfirst. unfold join_strings.
  rewrite join_strings_run_all by lia.
  remember (e - b - 1)%nat as k eqn:Ek.
  replace (e - b)%nat with (S k) by lia.
  rewrite elements_cons.
  change (join_all js (read st b :: ?l) ?w)
    with (join_all js l (join_body js (read st b) w)).
  cbn [outcome_map]. rewrite join_all_nonempty.
  - reflexivity.
  - cbn. destruct (read st b); [contradiction | reflexivity].
Qed.

(** The same, through the library's [concat]. *)
Lemma join_strings_concat b e js (st : St) :
  (b < e)%nat -> (e <= len)%nat -> read st b <> "" ->
  join_strings len read b e js st
  = Done (concat js (elements read st b (e - b))).
Proof.
  intros Hb He Hfirst. rewrite join_strings_first_nonempty by assumption.
  rewrite flatten_concat. rewrite <- elements_cons.
  replace (S (e - b - 1)) with (e - b)%nat by lia. reflexivity.
Qed.

Lemma join_strings_empty_range b js (st : St) :
  (b <= len)%nat -> join_strings_run len read b b js st = Done (mkJoiner st "" []).
Proof.
  intros Hb. rewrite join_strings_run_all by lia.
  now rewrite Nat.sub_diag.
Qed.

Lemma elements_clean (st : St) c b k :
  (forall p, (b <= p < b + k)%nat -> occurs c (read st p) = false) ->
  Forall (fun s => occurs c s = false) (elements read st b k).
Proof.
  intros Hclean. apply Forall_forall. intros s Hs.
  apply in_map_iff in Hs as [p [<- Hp]]. apply in_seq in Hp.
  apply Hclean. lia.
Qed.

End JoinClaims.

(** C2, as the specification words it, does not hold: a separator that
    occurs inside an element is counted too.  Joining the single string
    "a-b" with "-" gives "a-b", where "-" occurs once and not
    [max(0, 1 - 1) = 0] times. *)
Lemma join_strings_separator_inside_element :
  exists r,
    join_strings 1 Sample.srd 0 1 "-" ["a-b"] = Done r
    /\ Z.of_nat (occurrences "-" r)
       <> Z.max 0 (Z.of_nat (List.length ["a-b"]) - 1).
Proof. exists "a-b". split; [reflexivity | vm_compute; discriminate]. Qed.

(** The separator is dropped after leading empty strings, because the
    lambda tells the first string by [result] being empty. *)
Remark join_strings_after_leading_empty :
  join_strings 2 Sample.srd 0 2 "-" [""; "a"] = Done "a"
  /\ concat "-" [""; "a"] = "-a".
Proof. split; reflexivity. Qed.

(** The separator is a piece of its own between two elements even when
    one of them is empty, so the characters of a result may end with it. *)
Remark join_strings_empty_last_element :
  join_strings_run 2 Sample.srd 0 2 "-" ["a"; ""]
  = Done (mkJoiner ["a"; ""] "a-" [Element "a"; Separator; Element ""]).
Proof. reflexivity. Qed.

(** With the default separator. *)
Remark join_strings_default_separator :
  join_strings 3 Sample.srd 0 3 default_separator ["x"; "y"; "z"]
  = Done "x, y, z".
Proof. reflexivity. Qed.

(** C2, amended.  Take a sequence S of strings whose first element, if
    there is one, is not empty, and a separator J that is not empty and
    whose first character occurs in no element of S.  Then in
    [join_strings] of S with J, scanned from the left, J occurs exactly
    [max(0, |S| - 1)] times, and removing these occurrences leaves the
    concatenation of the elements of S in order. *)
Theorem join_strings_separator_count
    {St : Type} (len : nat) (read : St -> nat -> string)
    (b e : nat) (c : ascii) (js : string) (st : St) :
  (b <= e)%nat -> (e <= len)%nat ->
  (forall p, (b <= p < e)%nat -> occurs c (read st p) = false) ->
  ((b < e)%nat -> read st b <> "") ->
  exists r,
    join_strings len read b e (String c js) st = Done r
    /\ Z.of_nat (occurrences (String c js) r)
       = Z.max 0 (Z.of_nat (List.length (elements read st b (e - b))) - 1)
    /\ remove_occurrences (String c js) r
       = flatten (elements read st b (e - b)).
Proof.
  intros Hb He Hclean Hfirst. rewrite elements_length.
  destruct (Nat.eq_dec b e) as [-> | Hne].
  - exists "". unfold join_strings.
    rewrite join_strings_empty_range by assumption.
    rewrite Nat.sub_diag. repeat split.
  - assert (Hlt : (b < e)%nat) by lia.
    eexists. split; [apply join_strings_first_nonempty; auto |].
    unfold occurrences, remove_occurrences.
    rewrite scan_clean by (apply Hclean; lia).
    rewrite scan_joined_tail by (apply elements_clean; intros p Hp; apply Hclean; lia).
    cbn [fst snd]. rewrite elements_length. split; [lia |].
    change (read st b ++ flatten ?l) with (flatten (read st b :: l)).
    rewrite <- elements_cons.
    replace (S (e - b - 1)) with (e - b)%nat by lia. reflexivity.
Qed.

Lemma join_strings_separator_count_witness :
  exists r,
    join_strings 3 Sample.srd 0 3 "-" ["a"; "b"; "c"] = Done r
    /\ Z.of_nat (occurrences "-" r)
       = Z.max 0 (Z.of_nat (List.length
                              (elements Sample.srd ["a"; "b"; "c"] 0 (3 - 0))) - 1)
    /\ remove_occurrences "-" r
       = flatten (elements Sample.srd ["a"; "b"; "c"] 0 (3 - 0)).
Proof.
  apply (join_strings_separator_count 3 Sample.srd 0 3 "-"%char "" ["a"; "b"; "c"]).
  - lia.
  - lia.
  - intros p Hp. do 3 (destruct p as [| p]; [reflexivity |]). lia.
  - intros _. discriminate.
Defined.

Lemma join_all_render {St : Type} js l : forall w : joiner St,
  result w = render js (appended w) ->
  result (join_all js l w) = render js (appended (join_all js l w)).
Proof.
  induction l as [| s l IH]; intros w Hw; [exact Hw |].
  apply (IH (join_body js s w)). now apply join_body_render.
Qed.

(** C7.  On the empty range [join_strings] returns the empty string
    (nothing is appended); on a range of one element it returns that
    element (the only append is the element); and on every range inside the
    sequence the result is the appended pieces in order, of which the first
    is the first element and the last is the last element, so that no
    separator leads or trails.  Joining "a", "b", "c" with "-" gives
    "a-b-c". *)
Theorem join_strings_no_outer_separator
    {St : Type} (len : nat) (read : St -> nat -> string)
    (b e : nat) (js : string) (st : St) :
  (b <= e)%nat -> (e <= len)%nat ->
  exists w,
    join_strings_run len read b e js st = Done w
    /\ join_strings len read b e js st = Done (result w)
    /\ result w = render js (appended w)
    /\ (e = b -> result w = "" /\ appended w = [])
    /\ (e = S b -> result w = read st b /\ appended w = [Element (read st b)])
    /\ ((b < e)%nat -> exists rest, appended w = Element (read st b) :: rest)
    /\ ((b < e)%nat ->
        exists rest, appended w = (rest ++ [Element (read st (e - 1)%nat)])%list)
    /\ join_strings 3 Sample.srd 0 3 "-" ["a"; "b"; "c"] = Done "a-b-c".
Proof.
  intros Hb He.
  exists (join_all js (elements read st b (e - b)) (mkJoiner st "" [])).
  assert (Hrun := join_strings_run_all read js st Hb He).
  split; [exact Hrun |].
  split; [unfold join_strings; now rewrite Hrun |].
  split; [now apply join_all_render |].
  split; [| split; [| split; [| split]]].
  - intros ->. now rewrite Nat.sub_diag.
  - intros ->. replace (S b - b)%nat with 1%nat by lia. now cbn.
  - intros Hlt. remember (e - b - 1)%nat as k eqn:Ek.
    replace (e - b)%nat with (S k) by lia. rewrite elements_cons.
    change (join_all js (read st b :: ?l) ?w)
      with (join_all js l (join_body js (read st b) w)).
    destruct (join_all_grows js (elements read st (S b) k)
                (join_body js (read st b) (mkJoiner st "" []))) as [extra Hx].
    exists extra. rewrite Hx. reflexivity.
  - intros Hlt. remember (e - b - 1)%nat as k eqn:Ek.
    replace (e - b)%nat with (S k) by lia.
    rewrite elements_snoc, join_all_snoc.
    replace (e - 1)%nat with (b + k)%nat by lia.
    apply join_body_last.
  - reflexivity.
Qed.

Lemma join_strings_no_outer_separator_witness :
  exists w,
    join_strings_run 3 Sample.srd 0 3 "-" ["a"; "b"; "c"] = Done w
    /\ join_strings 3 Sample.srd 0 3 "-" ["a"; "b"; "c"] = Done (result w)
    /\ result w = render "-" (appended w)
    /\ (3%nat = 0%nat -> result w = "" /\ appended w = [])
    /\ (3%nat = 1%nat ->
        result w = Sample.srd ["a"; "b"; "c"] 0
        /\ appended w = [Element (Sample.srd ["a"; "b"; "c"] 0)])
    /\ ((0 < 3)%nat ->
        exists rest, appended w = Element (Sample.srd ["a"; "b"; "c"] 0) :: rest)
    /\ ((0 < 3)%nat ->
        exists rest,
          appended w = (rest ++ [Element (Sample.srd ["a"; "b"; "c"] (3 - 1)%nat)])%list)
    /\ join_strings 3 Sample.srd 0 3 "-" ["a"; "b"; "c"] = Done "a-b-c".
Proof.
  apply (join_strings_no_outer_separator 3 Sample.srd 0 3 "-" ["a"; "b"; "c"]); lia.
Defined.

Close Scope string_scope.

(** ** [generate_sequence] *)




(** C6, as the specification words it, does not hold in its first half:
    [generate_sequence<0>(g)] is not an empty container with [g] left
    alone; it is no container at all. *)
Lemma generate_sequence_zero_not_empty_container :
  generate_sequence 0 Sample.ticket 5 <> Some (mkArray 0 [], mkGen 5 []).
Proof. vm_compute. discriminate. Qed.

(** C6, amended.  For every generator [g], [generate_sequence<0>(g)] is
    rejected when the template is instantiated, so that no container is
    produced and [g] is never invoked; [generate_sequence<3>] applied to
    the generator [i -> i*i] yields the container [0, 1, 4]. *)
Theorem generate_sequence_zero_and_three
    {T St : Type} (gen : generator (T := T) (St := St)) (st : St) :
  generate_sequence 0 gen st = None
  /\ generate_sequence 3 Sample.square tt
     = Some (mkArray 3 [0; 1; 4], mkGen tt [0; 1; 2]).
Proof. split; reflexivity. Qed.

(** ** All five operations *)

Section FrameFacts.
Context {A St : Type}.
Variable len : nat.
Variable read : St -> nat -> A.

Lemma indexed_for_invariant (P : St -> Prop) (f : visitor) :
  (forall a i st, P st -> P (f a i st)) ->
  forall i0 first last (st : St) i r,
    indexed_for len read i0 first last f st = Done (i, r) ->
    P st -> P (store r).
Proof.
  intros Hf i0 first last st i r Hrun Hst. unfold indexed_for in Hrun.
  destruct (std_for_each len _ first last (indexed_for_body f) (mkRun st [], i0))
    as [w |] eqn:Hloop; [| discriminate].
  cbn in Hrun. inversion Hrun; subst.
  apply (std_for_each_invariant len _ (fun w => P (store (fst w)))
           (indexed_for_body f)) in Hloop; auto.
  intros a w0 Hw0. cbn. now apply Hf.
Qed.

Lemma walk_indexed_for_count (f : visitor) k : forall first (r : run A St) i,
  List.length
    (calls (fst (walk (fun w p => read (store (fst w)) p)
                   (indexed_for_body f) first k (r, i))))
  = (List.length (calls r) + k)%nat.
Proof.
  induction k as [| k IH]; intros first r i; cbn [walk].
  - cbn. lia.
  - unfold indexed_for_body at 2. rewrite IH. cbn [invoke calls fst snd].
    rewrite length_app. cbn. lia.
Qed.

Lemma join_body_pieces js s (w : joiner St) :
  (List.length (appended w) + 1 <= List.length (appended (join_body js s w))
   <= List.length (appended w) + 2)%nat.
Proof.
  unfold join_body. destruct (negb (empty (result w)));
    cbn [append_element append_separator appended];
    rewrite ?length_app; cbn; lia.
Qed.

Lemma join_all_pieces js l : forall w : joiner St,
  (List.length (appended w) + List.length l
   <= List.length (appended (join_all js l w))
   <= List.length (appended w) + 2 * List.length l)%nat.
Proof.
  induction l as [| s l IH]; intros w.
  - cbn. lia.
  - change (join_all js (s :: l) w) with (join_all js l (join_body js s w)).
    specialize (IH (join_body js s w)).
    pose proof (join_body_pieces js s w). cbn [List.length]. lia.
Qed.

End FrameFacts.

(** C8.  None of the five operations changes the sequence it is given.
    [join_strings] leaves the whole store as it found it; the other four
    change the store only through the visitor or generator they are
    handed, so that with a visitor and a generator that leave the elements
    alone, the elements after the call are those before it. *)
Theorem operations_leave_sequence_unchanged
    {A St T : Type} (len : nat) (read : St -> nat -> A)
    (reads : St -> nat -> string)
    (f : visitor) (gen : generator (T := T) (St := St)) (st : St) :
  (forall a i s, same_elements len read s (f a i s)) ->
  (forall k s, same_elements len read s (snd (gen k s))) ->
  (forall b e js w,
     join_strings_run len reads b e js st = Done w -> caller w = st)
  /\ (forall n arr r,
        generate_sequence n gen st = Some (arr, r) ->
        same_elements len read st (gstore r))
  /\ (forall first n p r,
        for_each_n len read first n f st = Done (p, r) ->
        same_elements len read st (store r))
  /\ (forall i0 first last i r,
        indexed_for len read i0 first last f st = Done (i, r) ->
        same_elements len read st (store r))
  /\ (forall first c p r,
        indexed_for_n len read first c f st = Some (Done (p, r)) ->
        same_elements len read st (store r)).
Proof.
  intros Hf Hgen.
  assert (Hkeep : forall a i s,
            same_elements len read st s -> same_elements len read st (f a i s)).
  { intros a i s Hs. eapply same_elements_trans; eauto. }
  assert (Hloop : forall first n p r,
            for_each_n len read first n f st = Done (p, r) ->
            same_elements len read st (store r)).
  { intros first n p r Hrun. unfold for_each_n in Hrun.
    eapply (for_each_n_loop_invariant len read (same_elements len read st)) in Hrun;
      eauto.
    apply same_elements_refl. }
  split; [| split; [| split; [| split]]].
  - intros b e js w Hrun. unfold join_strings_run in Hrun.
    apply (std_for_each_invariant len _ (fun w => caller w = st) (join_body js))
      in Hrun; auto.
    intros a w0 Hw0. now rewrite join_body_caller.
  - intros n arr r Hrun. destruct (Z_le_gt_dec n 0) as [Hn | Hn].
    + rewrite generate_sequence_rejected in Hrun by assumption. discriminate.
    + rewrite generate_sequence_positive in Hrun by lia.
      inversion Hrun; subst. rewrite invoke_each_store. cbn [gstore].
      apply (gen_store_invariant gen (same_elements len read st)).
      * intros k s Hs. eapply same_elements_trans; eauto.
      * apply same_elements_refl.
  - exact Hloop.
  - intros i0 first last i r Hrun.
    eapply (indexed_for_invariant len read (same_elements len read st)); eauto.
    apply same_elements_refl.
  - intros first c p r Hrun.
    assert (Hinv : forall bound,
              indexed_for_n_loop len read bound f 0 first (mkRun st []) = Done (p, r) ->
              same_elements len read st (store r)).
    { intros bound Hb.
      eapply (indexed_for_n_loop_invariant len read (same_elements len read st))
        in Hb; eauto.
      apply same_elements_refl. }
    destruct c as [k | get | get]; cbn [indexed_for_n] in Hrun.
    + injection Hrun as Hrun. now apply (Hinv (fun _ => k)).
    + injection Hrun as Hrun. now apply (Hinv get).
    + discriminate.
Qed.

Lemma operations_leave_sequence_unchanged_witness :
  same_elements 4 Sample.rd (Sample.init [10; 20; 30; 40])
    (store (mkRun (Sample.mkMem [10; 20; 30; 40] 30 []) [(10, 0); (20, 1)])).
Proof.
  refine (proj1 (proj2 (proj2
    (operations_leave_sequence_unchanged 4 Sample.rd Sample.label
       Sample.sum_visitor Sample.tally (Sample.init [10; 20; 30; 40]) _ _)))
    0%nat 2 2%nat _ _).
  - intros a i s p Hp. reflexivity.
  - intros k s p Hp. reflexivity.
  - reflexivity.
Defined.

(** The frame property says something: a visitor that writes to the
    sequence does change it. *)
Remark visitor_may_change_sequence :
  final_store
    (for_each_n 2 Sample.rd 0 1 Sample.eraser (Sample.init [10; 20]))
  = Some (Sample.mkMem [0; 0] 0 []).
Proof. reflexivity. Qed.

(** C9.  On a well-formed input (a range or a count that stays inside the
    sequence, the count of [indexed_for_n] passed so that the call
    instantiates, a positive size for [generate_sequence]) each of the five
    operations returns, after as many rounds as the range is long, or [n],
    or [N]: one invocation of the visitor or generator per round, and at
    most two appends per string for [join_strings]. *)
Theorem operations_run_to_completion
    {A St T : Type} (len : nat) (read : St -> nat -> A)
    (reads : St -> nat -> string)
    (f : visitor) (gen : generator (T := T) (St := St)) (st : St)
    (first last : nat) (c : count_arg St) (n N i0 : Z) (b e : nat)
    (js : string) :
  (first + Z.to_nat n <= len)%nat -> count_holds c f st n ->
  (first <= last)%nat -> (last <= len)%nat ->
  (b <= e)%nat -> (e <= len)%nat ->
  1 <= N ->
  (exists w,
     join_strings_run len reads b e js st = Done w
     /\ (e - b <= List.length (appended w) <= 2 * (e - b))%nat)
  /\ (exists arr r,
        generate_sequence N gen st = Some (arr, r)
        /\ List.length (gcalls r) = Z.to_nat N)
  /\ (exists r,
        for_each_n len read first n f st = Done ((first + Z.to_nat n)%nat, r)
        /\ List.length (calls r) = Z.to_nat n)
  /\ (exists i r,
        indexed_for len read i0 first last f st = Done (i, r)
        /\ List.length (calls r) = (last - first)%nat)
  /\ (exists r,
        indexed_for_n len read first c f st
        = Some (Done ((first + Z.to_nat n)%nat, r))
        /\ List.length (calls r) = Z.to_nat n).
Proof.
  intros Hn Hc Hfl Hlast Hb He HN.
  split; [| split; [| split; [| split]]].
  - eexists. split; [now apply join_strings_run_all |].
    pose proof (join_all_pieces js (elements reads st b (e - b))
                  (mkJoiner st EmptyString [])) as Hp.
    rewrite elements_length in Hp. cbn [appended List.length] in Hp. lia.
  - do 2 eexists. split; [now apply generate_sequence_positive |].
    rewrite invoke_each_calls. cbn [gcalls app]. now rewrite iota_length.
  - eexists. split; [now apply for_each_n_run |]. now rewrite visits_count.
  - unfold indexed_for.
    rewrite (std_for_each_walk _ (last - first)) by lia.
    cbn [outcome_map]. do 2 eexists. split; [reflexivity |].
    cbn [fst snd]. now rewrite walk_indexed_for_count.
  - eexists. split.
    + rewrite (@indexed_for_n_count_holds _ _ len read first c f st n Hc).
      f_equal. now apply for_each_n_run.
    + now rewrite visits_count.
Qed.

Lemma operations_run_to_completion_witness :
  exists r,
    indexed_for_n 4 Sample.rd 1 (Temporary 2) Sample.sum_visitor
      (Sample.init [10; 20; 30; 40])
    = Some (Done ((1 + Z.to_nat 2)%nat, r))
    /\ List.length (calls r) = Z.to_nat 2.
Proof.
  refine (proj2 (proj2 (proj2 (proj2
    (operations_run_to_completion 4 Sample.rd Sample.label
       Sample.sum_visitor Sample.tally (Sample.init [10; 20; 30; 40])
       1 3 (Temporary 2) 2 3 7 0 2 ", " _ _ _ _ _ _ _))))).
  - vm_compute. lia.
  - reflexivity.
  - lia.
  - lia.
  - lia.
  - lia.
  - lia.
Defined.

(** * Further properties of the source *)

(** ** What [join_strings] appends *)

Section JoinTrace.
Context {St : Type}.
Local Open Scope string_scope.

Lemma join_body_fresh js s (w : joiner St) :
  empty (result (join_body js s w)) = empty (result w) && empty s.
Proof.
  unfold join_body. destruct (result w) as [| c r] eqn:Hr; cbn; rewrite ?Hr; cbn.
  - reflexivity.
  - reflexivity.
Qed.

Lemma join_body_appended js s (w : joiner St) :
  appended (join_body js s w)
  = (appended w
     ++ (if empty (result w) then [Element s] else [Separator; Element s]))%list.
Proof.
  unfold join_body. destruct (empty (result w)); cbn; [reflexivity |].
  now rewrite <- app_assoc.
Qed.

Lemma join_all_trace js l : forall w : joiner St,
  appended (join_all js l w)
  = (appended w ++ pieces (empty (result w)) l)%list.
Proof.
  induction l as [| s l IH]; intros w.
  - cbn. now rewrite app_nil_r.
  - change (join_all js (s :: l) w) with (join_all js l (join_body js s w)).
    rewrite IH, join_body_appended, join_body_fresh. cbn [pieces].
    now rewrite <- app_assoc.
Qed.

Lemma join_all_fresh js l : forall w : joiner St,
  empty (result w) = true ->
  result (join_all js l w) = concat js (drop_leading_empty l).
Proof.
  induction l as [| s l IH]; intros w Hw.
  - cbn. destruct (result w); [reflexivity | discriminate].
  - change (join_all js (s :: l) w) with (join_all js l (join_body js s w)).
    cbn [drop_leading_empty]. destruct (empty s) eqn:Hs.
    + apply IH. now rewrite join_body_fresh, Hw, Hs.
    + rewrite join_all_nonempty by (now rewrite join_body_fresh, Hw, Hs).
      rewrite <- flatten_concat. f_equal.
      unfold join_body. rewrite Hw. cbn.
      destruct (result w); [reflexivity | discriminate].
Qed.


(** A separator among the pieces has an element right after it, and an
    element right before it unless it is the very first piece (which takes
    [fresh = false]). *)
Lemma pieces_separator l : forall fresh l1 l2,
  pieces fresh l = (l1 ++ Separator :: l2)%list ->
  (exists s l2', l2 = Element s :: l2')
  /\ ((l1 = [] /\ fresh = false)
      \/ exists s l1', l1 = (l1' ++ [Element s])%list).
Proof.
  induction l as [| s l IH]; intros fresh l1 l2 Hp.
  - destruct l1; discriminate.
  - cbn [pieces] in Hp. destruct fresh; cbn in Hp.
    + destruct l1 as [| p l1]; [discriminate |].
      cbn in Hp. injection Hp as <- Hrest.
      destruct (IH _ _ _ Hrest) as [Hafter [[-> _] | [t [l1' ->]]]].
      * split; [exact Hafter |]. right. now exists s, [].
      * split; [exact Hafter |]. right. now exists t, (Element s :: l1').
    + destruct l1 as [| p l1].
      * cbn in Hp. injection Hp as <-. split; eauto.
      * cbn in Hp. injection Hp as <- Hrest.
        destruct l1 as [| q l1]; [discriminate |].
        cbn in Hrest. injection Hrest as <- Hrest.
        destruct (IH _ _ _ Hrest) as [Hafter [[-> _] | [t [l1' ->]]]].
        -- split; [exact Hafter |]. right. now exists s, [Separator].
        -- split; [exact Hafter |]. right.
           now exists t, (Separator :: Element s :: l1').
Qed.

Lemma concat_no_separator l : concat "" l = flatten l.
Proof.
  induction l as [| s l IH]; [reflexivity |].
  cbn [concat flatten fold_right]. fold (flatten l). destruct l as [| t l].
  - cbn. now rewrite append_nil_r.
  - now rewrite IH.
Qed.

Lemma flatten_drop_leading_empty l : flatten (drop_leading_empty l) = flatten l.
Proof.
  induction l as [| s l IH]; [reflexivity |].
  cbn [drop_leading_empty]. destruct s as [| c s]; [exact IH | reflexivity].
Qed.

Lemma drop_leading_empty_nil l :
  drop_leading_empty l = [] <-> Forall (fun s => s = "") l.
Proof.
  induction l as [| s l IH]; cbn [drop_leading_empty].
  - split; auto.
  - destruct s as [| c s]; cbn.
    + rewrite IH. split; intros H; [now constructor | now inversion H].
    + split; [discriminate |]. intros H. inversion H; discriminate.
Qed.

Lemma concat_drop_leading_empty js l :
  concat js (drop_leading_empty l) = "" <-> drop_leading_empty l = [].
Proof.
  split; [| now intros ->].
  induction l as [| s l IH]; cbn [drop_leading_empty]; [reflexivity |].
  destruct s as [| c s]; cbn [empty]; [exact IH |].
  intros H. exfalso. cbn in H. destruct l; discriminate.
Qed.

Lemma elements_app (read : St -> nat -> string) (st : St) b k1 k2 :
  elements read st b (k1 + k2)
  = (elements read st b k1 ++ elements read st (b + k1) k2)%list.
Proof. unfold elements. now rewrite seq_app, map_app. Qed.

End JoinTrace.

Open Scope string_scope.


(** X1.  On a range inside the sequence [join_strings] returns the strings
    of the range, without the empty strings the range starts with, joined
    by the separator: an empty string at the front gets no separator after
    it, an empty string further on is joined like any other. *)
Theorem join_strings_skips_leading_empty
    {St : Type} (len : nat) (read : St -> nat -> string)
    (b e : nat) (js : string) (st : St) :
  (b <= e)%nat -> (e <= len)%nat ->
  join_strings len read b e js st
  = Done (concat js (drop_leading_empty (elements read st b (e - b)))).
Proof.
  intros Hb He. unfold join_strings.
  rewrite (join_strings_run_all read js st Hb He). cbn [outcome_map].
  now rewrite join_all_fresh.
Qed.

Lemma join_strings_skips_leading_empty_witness :
  join_strings 4 Sample.srd 0 4 "-" [""; "a"; ""; "b"] = Done "a--b".
Proof.
  exact (join_strings_skips_leading_empty 4 Sample.srd 0 4 "-"
           [""; "a"; ""; "b"] (Nat.le_0_l 4) (Nat.le_refl 4)).
Defined.

(** X2.  With the empty separator [join_strings] returns the concatenation
    of all the strings of the range, empty ones at the front included. *)
Theorem join_strings_empty_separator
    {St : Type} (len : nat) (read : St -> nat -> string)
    (b e : nat) (st : St) :
  (b <= e)%nat -> (e <= len)%nat ->
  join_strings len read b e "" st = Done (flatten (elements read st b (e - b))).
Proof.
  intros Hb He. unfold join_strings.
  rewrite (join_strings_run_all read "" st Hb He). cbn [outcome_map].
  rewrite join_all_fresh by reflexivity.
  now rewrite concat_no_separator, flatten_drop_leading_empty.
Qed.

Lemma join_strings_empty_separator_witness :
  join_strings 3 Sample.srd 0 3 "" [""; "ab"; "c"]
  = Done (flatten (elements Sample.srd [""; "ab"; "c"] 0 (3 - 0))).
Proof.
  exact (join_strings_empty_separator 3 Sample.srd 0 3 [""; "ab"; "c"]
           (Nat.le_0_l 3) (Nat.le_refl 3)).
Defined.

(** X3.  [join_strings] returns the empty string exactly when every string
    of the range is empty. *)
Theorem join_strings_empty_result
    {St : Type} (len : nat) (read : St -> nat -> string)
    (b e : nat) (js : string) (st : St) :
  (b <= e)%nat -> (e <= len)%nat ->
  (join_strings len read b e js st = Done ""
   <-> forall p, (b <= p < e)%nat -> read st p = "").
Proof.
  intros Hb He. unfold join_strings.
  rewrite (join_strings_run_all read js st Hb He). cbn [outcome_map].
  rewrite join_all_fresh by reflexivity.
  split.
  - intros Hrun p Hp. injection Hrun as Hc.
    apply concat_drop_leading_empty, drop_leading_empty_nil in Hc.
    rewrite Forall_forall in Hc. apply Hc.
    apply in_map_iff. exists p. split; [reflexivity |]. apply in_seq. lia.
  - intros Hall. f_equal.
    apply concat_drop_leading_empty, drop_leading_empty_nil, Forall_forall.
    intros s Hs. apply in_map_iff in Hs as [p [<- Hp]]. apply in_seq in Hp.
    apply Hall. lia.
Qed.

Lemma join_strings_empty_result_witness :
  join_strings 2 Sample.srd 0 2 "-" [""; ""] = Done ""
  <-> forall p, (0 <= p < 2)%nat -> Sample.srd [""; ""] p = "".
Proof.
  exact (join_strings_empty_result 2 Sample.srd 0 2 "-" [""; ""]
           (Nat.le_0_l 2) (Nat.le_refl 2)).
Defined.



(** X5.  Whenever [join_strings] appends the separator, the append right
    before it and the append right after it are strings of the range: the
    separator is never appended first, last, or twice in a row. *)
Theorem join_strings_separator_between_elements
    {St : Type} (len : nat) (read : St -> nat -> string)
    (b e : nat) (js : string) (st : St) :
  (b <= e)%nat -> (e <= len)%nat ->
  exists w,
    join_strings_run len read b e js st = Done w
    /\ forall l1 l2,
         appended w = (l1 ++ Separator :: l2)%list ->
         (exists s l1', l1 = (l1' ++ [Element s])%list)
         /\ (exists s l2', l2 = Element s :: l2').
Proof.
  intros Hb He. eexists. split; [now apply join_strings_run_all |].
  intros l1 l2 Hsplit. rewrite join_all_trace in Hsplit.
  cbn [appended app result empty] in Hsplit.
  destruct (pieces_separator _ _ _ _ Hsplit) as [Hafter [[_ Hf] | Hbefore]].
  - discriminate.
  - split; assumption.
Qed.

Lemma join_strings_separator_between_elements_witness :
  exists w,
    join_strings_run 3 Sample.srd 0 3 "-" ["a"; ""; "b"] = Done w
    /\ forall l1 l2,
         appended w = (l1 ++ Separator :: l2)%list ->
         (exists s l1', l1 = (l1' ++ [Element s])%list)
         /\ (exists s l2', l2 = Element s :: l2').
Proof.
  exact (join_strings_separator_between_elements 3 Sample.srd 0 3 "-"
           ["a"; ""; "b"] (Nat.le_0_l 3) (Nat.le_refl 3)).
Defined.



(** X7.  Joining a range in two halves: when the first half joins to a
    string that is not empty and the second half starts with a string that
    is not empty, the join of the whole range is the join of the first
    half, the separator, and the join of the second half. *)
Theorem join_strings_split
    {St : Type} (len : nat) (read : St -> nat -> string)
    (b m e : nat) (js r1 r2 : string) (st : St) :
  (b <= m)%nat -> (m < e)%nat -> (e <= len)%nat ->
  join_strings len read b m js st = Done r1 ->
  join_strings len read m e js st = Done r2 ->
  r1 <> "" -> read st m <> "" ->
  join_strings len read b e js st = Done (r1 ++ js ++ r2).
Proof.
  intros Hb Hm He Hr1 Hr2 Hne1 Hne2.
  rewrite join_strings_first_nonempty in Hr2 by (assumption || lia).
  inversion Hr2 as [Hr2']. clear Hr2.
  unfold join_strings in *.
  rewrite join_strings_run_all in Hr1 by lia.
  rewrite join_strings_run_all by lia.
  cbn [outcome_map] in *. inversion Hr1 as [Hr1']. clear Hr1.
  replace (e - b)%nat with ((m - b) + (e - m))%nat by lia.
  rewrite elements_app. replace (b + (m - b))%nat with m by lia.
  unfold join_all at 1. rewrite fold_left_app.
  fold (join_all js (elements read st b (m - b)) (mkJoiner st "" [])).
  match goal with
  | |- Done (result (fold_left ?g ?l ?w)) = _ =>
      change (fold_left g l w) with (join_all js l w)
  end.
  rewrite join_all_nonempty.
  - rewrite Hr1'. do 2 f_equal.
    replace (e - m)%nat with (S (e - m - 1)) at 1 by lia.
    rewrite elements_cons. cbn [map flatten fold_right].
    now rewrite append_assoc.
  - rewrite Hr1'. destruct r1; [contradiction | reflexivity].
Qed.

Lemma join_strings_split_witness :
  join_strings 3 Sample.srd 0 3 ", " ["a"; "b"; "c"]
  = Done ("a, b" ++ ", " ++ "c").
Proof.
  refine (join_strings_split 3 Sample.srd 0 2 3 ", " "a, b" "c"
            ["a"; "b"; "c"] _ _ _ _ _ _ _).
  - lia.
  - lia.
  - lia.
  - reflexivity.
  - reflexivity.
  - discriminate.
  - discriminate.
Defined.

Close Scope string_scope.

(** ** Ranges and counts that leave the sequence *)

Section Overrun.
Context {A St : Type}.
Variable len : nat.
Variable read : St -> nat -> A.

Lemma for_each_n_loop_overrun_later k : forall n f i first (r : run A St),
  n - i = Z.of_nat (S k) -> (len < first + S k)%nat ->
  for_each_n_loop len read n f i first r = Undefined.
Proof.
  induction k as [| k IH]; intros n f i first r Hk Hlen.
  - apply for_each_n_loop_overrun; lia.
  - destruct (lt_dec first len) as [Hin | Hout].
    + rewrite for_each_n_loop_step by lia. apply IH; lia.
    + apply for_each_n_loop_overrun; lia.
Qed.

Lemma for_each_n_undefined_iff first n f (st : St) :
  for_each_n len read first n f st = Undefined
  <-> 0 < n /\ (len < first + Z.to_nat n)%nat.
Proof.
  split.
  - intros Hrun. destruct (Z_le_gt_dec n 0) as [Hn | Hn].
    + unfold for_each_n in Hrun.
      rewrite for_each_n_loop_exit in Hrun by assumption. discriminate.
    + split; [lia |].
      destruct (le_lt_dec (first + Z.to_nat n) len) as [Hin | Hout]; [| exact Hout].
      rewrite for_each_n_run in Hrun by assumption. discriminate.
  - intros [Hn Hlen]. unfold for_each_n.
    apply (for_each_n_loop_overrun_later (Z.to_nat n - 1)); lia.
Qed.

End Overrun.

Section RangeOverrun.
Context {A W : Type}.
Variable len : nat.
Variable read : W -> nat -> A.

Lemma std_for_each_past_end first last (f : A -> W -> W) w :
  first <> last -> (len <= first)%nat ->
  std_for_each len read first last f w = Undefined.
Proof.
  intros Hne Hout. rewrite std_for_each_equation_1.
  destruct (Nat.eq_dec first last) as [Heq | Hne']; [contradiction |]. cbn.
  destruct (lt_dec first len) as [Hin | Hout']; [lia | reflexivity].
Qed.

Lemma std_for_each_overrun k : forall first last (f : A -> W -> W) w,
  (len - first = k)%nat -> first <> last ->
  (last < first)%nat \/ (len < last)%nat ->
  std_for_each len read first last f w = Undefined.
Proof.
  induction k as [| k IH]; intros first last f w Hk Hne Hbad.
  - apply std_for_each_past_end; [assumption | lia].
  - rewrite std_for_each_step by (assumption || lia).
    apply IH; lia.
Qed.

Lemma std_for_each_undefined_iff first last (f : A -> W -> W) w :
  std_for_each len read first last f w = Undefined
  <-> first <> last /\ ((last < first)%nat \/ (len < last)%nat).
Proof.
  split.
  - intros Hrun. destruct (Nat.eq_dec first last) as [-> | Hne].
    + rewrite std_for_each_exit in Hrun. discriminate.
    + split; [assumption |].
      destruct (le_lt_dec first last) as [Hfl | Hlf]; [| now left].
      destruct (le_lt_dec last len) as [Hin | Hout]; [| now right].
      rewrite (std_for_each_walk _ (last - first)) in Hrun by lia.
      discriminate.
  - intros [Hne Hbad]. now apply (std_for_each_overrun (len - first)).
Qed.

End RangeOverrun.

(** X8.  [for_each_n], and [indexed_for_n] with a count that lets it
    instantiate, run past the end of the sequence exactly when the count
    is positive and larger than the number of elements left from [first];
    a count that is zero or negative returns at once, wherever [first]
    points. *)
Theorem counted_loops_undefined_iff
    {A St : Type} (len : nat) (read : St -> nat -> A)
    (first : nat) (n : Z) (f : visitor) (st : St) :
  (for_each_n len read first n f st = Undefined
   <-> 0 < n /\ (len < first + Z.to_nat n)%nat)
  /\ (forall c, count_holds c f st n ->
      (indexed_for_n len read first c f st = Some Undefined
       <-> 0 < n /\ (len < first + Z.to_nat n)%nat))
  /\ (n <= 0 ->
      for_each_n len read first n f st = Done (first, mkRun st [])
      /\ forall c, count_holds c f st n ->
           indexed_for_n len read first c f st
           = Some (Done (first, mkRun st []))).
Proof.
  split; [apply for_each_n_undefined_iff |].
  split.
  - intros c Hc.
    rewrite (@indexed_for_n_count_holds _ _ len read first c f st n Hc).
    rewrite <- (for_each_n_undefined_iff len read first n f st).
    split; [intros H; now injection H | intros ->; reflexivity].
  - intros Hn.
    assert (Hrun : for_each_n len read first n f st = Done (first, mkRun st [])).
    { unfold for_each_n. now apply for_each_n_loop_exit. }
    split; [exact Hrun |].
    intros c Hc.
    now rewrite (@indexed_for_n_count_holds _ _ len read first c f st n Hc), Hrun.
Qed.

(** X9.  [indexed_for] and [join_strings] run past the end of the sequence
    exactly when their range is not empty and either ends before it starts
    or ends outside the sequence. *)
Theorem ranges_undefined_iff
    {A St : Type} (len : nat) (read : St -> nat -> A)
    (reads : St -> nat -> string)
    (i0 : Z) (first last : nat) (f : visitor) (js : string) (st : St) :
  (indexed_for len read i0 first last f st = Undefined
   <-> first <> last /\ ((last < first)%nat \/ (len < last)%nat))
  /\ (join_strings len reads first last js st = Undefined
      <-> first <> last /\ ((last < first)%nat \/ (len < last)%nat)).
Proof.
  split.
  - rewrite <- (std_for_each_undefined_iff len
                  (fun (w : run A St * Z) p => read (store (fst w)) p)
                  first last (indexed_for_body f) (mkRun st [], i0)).
    unfold indexed_for.
    destruct (std_for_each len _ first last (indexed_for_body f) (mkRun st [], i0));
      cbn; split; intros H; (discriminate || reflexivity).
  - rewrite <- (std_for_each_undefined_iff len
                  (fun (w : joiner St) p => reads (caller w) p)
                  first last (join_body js) (mkJoiner st EmptyString [])).
    unfold join_strings, join_strings_run.
    destruct (std_for_each len _ first last (join_body js)
                (mkJoiner st EmptyString []));
      cbn; split; intros H; (discriminate || reflexivity).
Qed.

(** ** Counting in [indexed_for] *)



(** ** Going on from the returned position *)

Section Continue.
Context {A St : Type}.
Variable read : St -> nat -> A.

Lemma visits_app (f : visitor) k1 : forall k2 i first (r : run A St),
  visits read f i first (k1 + k2) r
  = visits read f (i + Z.of_nat k1) (first + k1) k2 (visits read f i first k1 r).
Proof.
  induction k1 as [| k1 IH]; intros k2 i first r.
  - cbn [visits Nat.add]. now rewrite Z.add_0_r, Nat.add_0_r.
  - cbn [visits Nat.add]. rewrite IH. f_equal; lia.
Qed.

Lemma visits_shift (f : visitor) n k : forall i first (ra rb : run A St),
  store ra = store rb ->
  store (visits read (shift_index n f) i first k ra)
  = store (visits read f (n + i) first k rb)
  /\ exists log,
       calls (visits read (shift_index n f) i first k ra) = calls ra ++ log
       /\ calls (visits read f (n + i) first k rb)
          = calls rb ++ map (fun c => (fst c, n + snd c)) log.
Proof.
  induction k as [| k IH]; intros i first ra rb Hst; cbn [visits].
  - split; [exact Hst |]. exists []. cbn. now rewrite !app_nil_r.
  - destruct (IH (i + 1) (S first)
                (invoke (shift_index n f) (read (store ra) first) i ra)
                (invoke f (read (store rb) first) (n + i) rb))
      as [Hstore [log [Ha Hb]]].
    { cbn. unfold shift_index. now rewrite Hst. }
    replace (n + i + 1) with (n + (i + 1)) by lia.
    split; [exact Hstore |].
    exists ((read (store ra) first, i) :: log).
    rewrite Ha, Hb. cbn [invoke calls map fst snd].
    rewrite <- !app_assoc, Hst. split; reflexivity.
Qed.

End Continue.

(** X11.  The position [for_each_n] returns is where a second call goes on:
    visiting [n] elements and then [m] more from the returned position,
    with the indices of the second call moved up by [n], leaves the store,
    makes the invocations and returns the position of one call that visits
    [n + m] elements. *)
Theorem for_each_n_continues
    {A St : Type} (len : nat) (read : St -> nat -> A)
    (first : nat) (n m : Z) (f : visitor) (st : St) :
  0 <= n -> 0 <= m -> (first + Z.to_nat n + Z.to_nat m <= len)%nat ->
  exists r1 r2 r,
    for_each_n len read first n f st = Done ((first + Z.to_nat n)%nat, r1)
    /\ for_each_n len read (first + Z.to_nat n) m (shift_index n f) (store r1)
       = Done ((first + Z.to_nat n + Z.to_nat m)%nat, r2)
    /\ for_each_n len read first (n + m) f st
       = Done ((first + Z.to_nat n + Z.to_nat m)%nat, r)
    /\ store r = store r2
    /\ calls r = calls r1 ++ map (fun c => (fst c, n + snd c)) (calls r2).
Proof.
  intros Hn Hm Hlen.
  exists (visits read f 0 first (Z.to_nat n) (mkRun st [])).
  exists (visits read (shift_index n f) 0 (first + Z.to_nat n) (Z.to_nat m)
            (mkRun (store (visits read f 0 first (Z.to_nat n) (mkRun st []))) [])).
  exists (visits read f 0 first (Z.to_nat n + Z.to_nat m) (mkRun st [])).
  split; [apply for_each_n_run; lia |].
  split; [apply for_each_n_run; lia |].
  split.
  - rewrite for_each_n_run by lia.
    replace (Z.to_nat (n + m)) with (Z.to_nat n + Z.to_nat m)%nat by lia.
    now rewrite Nat.add_assoc.
  - rewrite visits_app.
    destruct (visits_shift read f n (Z.to_nat m) 0 (first + Z.to_nat n)
                (mkRun (store (visits read f 0 first (Z.to_nat n) (mkRun st []))) [])
                (visits read f 0 first (Z.to_nat n) (mkRun st []))
                eq_refl) as [Hstore [log [Ha Hb]]].
    cbn [calls app] in Ha.
    replace (0 + Z.of_nat (Z.to_nat n)) with (n + 0) by lia.
    split.
    + now rewrite Hstore.
    + now rewrite Hb, Ha.
Qed.

Lemma for_each_n_continues_witness :
  exists r1 r2 r,
    for_each_n 4 Sample.rd 0 1 Sample.index_recorder (Sample.init [10; 20; 30; 40])
    = Done ((0 + Z.to_nat 1)%nat, r1)
    /\ for_each_n 4 Sample.rd (0 + Z.to_nat 1) 2
         (shift_index 1 Sample.index_recorder) (store r1)
       = Done ((0 + Z.to_nat 1 + Z.to_nat 2)%nat, r2)
    /\ for_each_n 4 Sample.rd 0 (1 + 2) Sample.index_recorder
         (Sample.init [10; 20; 30; 40])
       = Done ((0 + Z.to_nat 1 + Z.to_nat 2)%nat, r)
    /\ store r = store r2
    /\ calls r = calls r1 ++ map (fun c => (fst c, 1 + snd c)) (calls r2).
Proof.
  apply (for_each_n_continues 4 Sample.rd 0 1 2 Sample.index_recorder
           (Sample.init [10; 20; 30; 40])).
  - lia.
  - lia.
  - vm_compute. lia.
Defined.

(** ** Sizes [generate_sequence] accepts *)


(** ** The store after [generate_sequence] *)




(** ** A visitor that does not look at the index *)

Section Blind.
Context {A St : Type}.
Variable read : St -> nat -> A.

Lemma walk_visits_blind (f : visitor) :
  (forall a i j s, f a i s = f a j s) ->
  forall k first (r r' : run A St) i j,
    store r = store r' ->
    map fst (calls r) = map fst (calls r') ->
    store (fst (walk (fun w p => read (store (fst w)) p)
                  (indexed_for_body f) first k (r, i)))
    = store (visits read f j first k r')
    /\ map fst (calls (fst (walk (fun w p => read (store (fst w)) p)
                              (indexed_for_body f) first k (r, i))))
       = map fst (calls (visits read f j first k r')).
Proof.
  intros Hf. induction k as [| k IH]; intros first r r' i j Hst Hcalls;
    cbn [walk visits].
  - now split.
  - change (indexed_for_body f (read (store (fst (r, i))) first) (r, i))
      with (invoke f (read (store r) first) i r, size_t_incr i).
    apply IH.
    + cbn. rewrite Hst. apply Hf.
    + cbn [invoke calls]. rewrite !map_app, Hcalls, Hst. reflexivity.
Qed.

End Blind.

(** X14.  A visitor that does not look at the index is not affected by the
    counter of [indexed_for]: whatever the counter holds when the call
    begins, over a range inside the sequence [indexed_for] hands the
    visitor the same elements and leaves the same store as [for_each_n]
    called with the length of the range. *)
Theorem indexed_for_index_blind_visitor
    {A St : Type} (len : nat) (read : St -> nat -> A)
    (i0 : Z) (first last : nat) (f : visitor) (st : St) :
  (first <= last)%nat -> (last <= len)%nat ->
  (forall a i j s, f a i s = f a j s) ->
  exists i r r',
    indexed_for len read i0 first last f st = Done (i, r)
    /\ for_each_n len read first (Z.of_nat (last - first)) f st = Done (last, r')
    /\ store r = store r'
    /\ map fst (calls r) = map fst (calls r').
Proof.
  intros Hfl Hlen Hf. unfold indexed_for.
  rewrite (std_for_each_walk _ (last - first)) by lia.
  rewrite for_each_n_run by lia. rewrite Nat2Z.id.
  replace (first + (last - first))%nat with last by lia.
  cbn [outcome_map]. do 3 eexists.
  split; [reflexivity |]. split; [reflexivity |]. cbn [fst snd].
  now apply walk_visits_blind.
Qed.

Lemma indexed_for_index_blind_visitor_witness :
  exists i r r',
    indexed_for 3 Sample.rd 7 0 3 Sample.sum_visitor (Sample.init [10; 20; 30])
    = Done (i, r)
    /\ for_each_n 3 Sample.rd 0 (Z.of_nat (3 - 0)) Sample.sum_visitor
         (Sample.init [10; 20; 30])
       = Done (3%nat, r')
    /\ store r = store r'
    /\ map fst (calls r) = map fst (calls r').
Proof.
  apply (indexed_for_index_blind_visitor 3 Sample.rd 7 0 3 Sample.sum_visitor
           (Sample.init [10; 20; 30])).
  - lia.
  - lia.
  - intros a i j s. reflexivity.
Defined.
